(** * theckman/semaphore: a counting semaphore over a closeable buffered channel

    The package keeps one field, [c chan struct{}], and maps
      Acquire  to a send         [s.c <- struct{}{}]   under a deferred recover,
      Release  to a receive      [_, ok := <-s.c],
      Close    to                [close(s.c)]          under a deferred recover.

    The development has three layers:
      - [Chan]: the channel operations the three methods call, with the
        goroutines parked on the channel kept in its two wait queues;
      - [Semaphore]: [New], [Acquire], [Release], [Close] as in semaphore.go,
        with the deferred [recover] written as a handler on the way a
        statement finishes;
      - [Run]: goroutines calling the methods one after another on the shared
        semaphore, with the history of the calls that have returned. *)

From Stdlib Require Import ZArith List Bool Lia Arith.
Import ListNotations.

Local Open Scope Z_scope.

(** A goroutine is named by a number. *)
Definition gid := nat.

(** ** How a statement finishes *)

(** A statement that runs to its end either yields a value or panics. *)
Inductive fin (A : Type) : Type :=
| Val (a : A)
| Panic.
Arguments Val {A} a.
Arguments Panic {A}.

(** A statement that is started either finishes at once or parks the
    goroutine that runs it. *)
Inductive status (A : Type) : Type :=
| Fin (f : fin A)
| Park.
Arguments Fin {A} f.
Arguments Park {A}.

Definition fin_bind {A B : Type} (f : fin A) (k : A -> fin B) : fin B :=
  match f with
  | Val a => k a
  | Panic => Panic
  end.

Definition status_map {A B : Type} (k : fin A -> fin B) (s : status A) : status B :=
  match s with
  | Fin f => Fin (k f)
  | Park => Park
  end.

(** ** The channel *)

(** The channel operations are the Go language's own (send, receive with
    [ok], [close], as the runtime implements them in chan.go); the package
    relies on them and on nothing else.  Only what a [chan struct{}] needs is
    kept. *)

Module Chan.

(** A [chan struct{}]: the elements carry no data, so the buffer is its
    length [qcount]; [dataqsiz] is the capacity given to [make]; [recvq] and
    [sendq] hold the goroutines parked in a receive and in a send, oldest
    first. *)
Record hchan : Type := mkChan {
  qcount : Z;
  dataqsiz : Z;
  closed : bool;
  recvq : list gid;
  sendq : list gid
}.

(** What a parked goroutine is told when it is made runnable again:
    [success] is true when a partner completed the operation and false when
    the channel was closed under it. *)
Inductive wake : Type :=
| WakeSend (g : gid) (success : bool)
| WakeRecv (g : gid) (success : bool).

(** [make(chan struct{}, size)]. *)
Definition makechan (size : Z) : hchan :=
  mkChan 0 size false [] [].

(** [c <- struct{}{}] run by goroutine [g]. *)
Definition chansend (g : gid) (c : hchan) : hchan * status unit * list wake :=
  if closed c then (c, Fin Panic, [])
  else match recvq c with
       | r :: rq =>
           (mkChan (qcount c) (dataqsiz c) (closed c) rq (sendq c),
            Fin (Val tt), [WakeRecv r true])
       | [] =>
           if qcount c <? dataqsiz c
           then (mkChan (qcount c + 1) (dataqsiz c) (closed c) (recvq c) (sendq c),
                 Fin (Val tt), [])
           else (mkChan (qcount c) (dataqsiz c) (closed c) (recvq c) (sendq c ++ [g]),
                 Park, [])
       end.

(** The part of a receive that takes a value once the closed-and-empty case
    is out of the way: from the buffer when it holds one, else park. *)
Definition recv_buffered (g : gid) (c : hchan) : hchan * status bool * list wake :=
  if 0 <? qcount c
  then (mkChan (qcount c - 1) (dataqsiz c) (closed c) (recvq c) (sendq c),
        Fin (Val true), [])
  else (mkChan (qcount c) (dataqsiz c) (closed c) (recvq c ++ [g]) (sendq c),
        Park, []).

(** [_, ok := <-c] run by goroutine [g]; the value is [ok].  With a sender
    parked, the receiver takes the head of the buffer and the sender's
    element goes to its tail (or passes directly when there is no buffer):
    the length stays as it was. *)
Definition chanrecv (g : gid) (c : hchan) : hchan * status bool * list wake :=
  if closed c then
    if qcount c =? 0 then (c, Fin (Val false), [])
    else recv_buffered g c
  else match sendq c with
       | s :: sq =>
           (mkChan (qcount c) (dataqsiz c) (closed c) (recvq c) sq,
            Fin (Val true), [WakeSend s true])
       | [] => recv_buffered g c
       end.

(** [close(c)]: every parked goroutine is made runnable with
    [success = false]. *)
Definition closechan (c : hchan) : hchan * status unit * list wake :=
  if closed c then (c, Fin Panic, [])
  else (mkChan (qcount c) (dataqsiz c) true [] [],
        Fin (Val tt),
        map (fun g => WakeRecv g false) (recvq c)
        ++ map (fun g => WakeSend g false) (sendq c)).

(** A send that was parked and is made runnable: it returns when its element
    was taken and panics when the channel was closed. *)
Definition resume_send (success : bool) : fin unit :=
  if success then Val tt else Panic.

(** A receive that was parked and is made runnable: [ok] is [success]. *)
Definition resume_recv (success : bool) : fin bool :=
  Val success.

End Chan.

(** ** The semaphore (semaphore.go) *)

(** [ErrUnusable] and [ErrAlreadyClosed] are the package's two error values;
    [ErrSize] stands for the value [New] builds on the spot with
    [errors.New("size argument must be greater than 0")]. *)
Inductive error : Type :=
| ErrUnusable
| ErrAlreadyClosed
| ErrSize.

Inductive meth : Type :=
| MAcquire
| MRelease
| MClose.

(** A call that has returned (or panicked): who made it, which method, and
    how it finished; [Val None] is a nil error. *)
Definition completion : Type := gid * meth * fin (option error).

Module Semaphore.
Import Chan.

Record semaphore : Type := mkSem { c : hchan }.

(** [func New(size int) (Semaphore, error)]. *)
Definition New (size : Z) : option semaphore * option error :=
  if size <? 1 then (None, Some ErrSize)
  else (Some (mkSem (makechan size)), None).

(** [defer func() { if r := recover(); r != nil { err = e } }()] around a
    body with the named result [err]. *)
Definition recover_with (e : error) (body : fin (option error)) : fin (option error) :=
  match body with
  | Val r => Val r
  | Panic => Val (Some e)
  end.

(** The three method bodies, as functions of how their channel statement
    finished.  [Release] has no deferred function. *)
Definition Acquire_body (sent : fin unit) : fin (option error) :=
  recover_with ErrUnusable (fin_bind sent (fun _ => Val None)).

Definition Release_body (got : fin bool) : fin (option error) :=
  fin_bind got (fun ok => if negb ok then Val (Some ErrUnusable) else Val None).

Definition Close_body (cl : fin unit) : fin (option error) :=
  recover_with ErrAlreadyClosed (fin_bind cl (fun _ => Val None)).

(** A goroutine parked on [s.c] is inside [Acquire] when it was sending and
    inside [Release] when it was receiving; made runnable, it runs the rest
    of that method. *)
Definition finish (w : wake) : completion :=
  match w with
  | WakeSend g ok => (g, MAcquire, Acquire_body (resume_send ok))
  | WakeRecv g ok => (g, MRelease, Release_body (resume_recv ok))
  end.

Definition Acquire (g : gid) (s : semaphore)
  : semaphore * status (option error) * list completion :=
  let '(c', st, wk) := chansend g (c s) in
  (mkSem c', status_map Acquire_body st, map finish wk).

Definition Release (g : gid) (s : semaphore)
  : semaphore * status (option error) * list completion :=
  let '(c', st, wk) := chanrecv g (c s) in
  (mkSem c', status_map Release_body st, map finish wk).

Definition Close (s : semaphore)
  : semaphore * status (option error) * list completion :=
  let '(c', st, wk) := closechan (c s) in
  (mkSem c', status_map Close_body st, map finish wk).

(** Readings of the state used in the statements. *)
Definition is_closed (s : semaphore) : bool := closed (c s).
Definition capacity (s : semaphore) : Z := dataqsiz (c s).
Definition held (s : semaphore) : Z := qcount (c s).
Definition available (s : semaphore) : Z := capacity s - held s.
Definition blocked_in_Acquire (s : semaphore) : list gid := sendq (c s).
Definition blocked_in_Release (s : semaphore) : list gid := recvq (c s).

End Semaphore.

(** ** Goroutines calling the methods of one shared semaphore *)

Module Run.
Import Chan Semaphore.

Definition invoke (m : meth) (g : gid) (s : semaphore)
  : semaphore * status (option error) * list completion :=
  match m with
  | MAcquire => Acquire g s
  | MRelease => Release g s
  | MClose => Close s
  end.

(** A parked goroutine makes no call. *)
Definition parked (s : semaphore) (g : gid) : bool :=
  existsb (Nat.eqb g) (blocked_in_Release s ++ blocked_in_Acquire s).

Record world : Type := mkWorld {
  sem : semaphore;
  hist : list completion
}.

Definition own (g : gid) (m : meth) (st : status (option error)) : list completion :=
  match st with
  | Fin f => [(g, m, f)]
  | Park => []
  end.

(** One call: the caller's own return, if it did not park, and then the
    returns of the goroutines the call made runnable, are added to the
    history. *)
Definition call (w : world) (gm : gid * meth) : option world :=
  let '(g, m) := gm in
  if parked (sem w) g then None
  else let '(s', st, wk) := invoke m g (sem w) in
       Some (mkWorld s' (hist w ++ own g m st ++ wk)).

Fixpoint run (w : world) (calls : list (gid * meth)) : option world :=
  match calls with
  | [] => Some w
  | gm :: rest =>
      match call w gm with
      | Some w' => run w' rest
      | None => None
      end
  end.

Definition start (s : semaphore) : world := mkWorld s [].

(** The states a semaphore made by [New size] can be brought to. *)
Definition reachable (size : Z) (w : world) : Prop :=
  exists s calls, New size = (Some s, None) /\ run (start s) calls = Some w.

Definition is_ok (m : meth) (k : completion) : bool :=
  match k with
  | (_, m', Val None) =>
      match m, m' with
      | MAcquire, MAcquire | MRelease, MRelease | MClose, MClose => true
      | _, _ => false
      end
  | _ => false
  end.

(** Successful calls of a method in a history. *)
Definition successes (m : meth) (h : list completion) : Z :=
  Z.of_nat (length (filter (is_ok m) h)).

(** Permits granted and not given back. *)
Definition outstanding (w : world) : Z :=
  successes MAcquire (hist w) - successes MRelease (hist w).

(** [n] calls of [Acquire] in a row, by the goroutines [g], [g+1], ... *)
Fixpoint acquires (n : nat) (g : gid) : list (gid * meth) :=
  match n with
  | O => []
  | S k => (g, MAcquire) :: acquires k (S g)
  end.

End Run.

Import Chan Semaphore Run.

(** ** The invariant of the reachable states *)

Definition inv (n : Z) (w : world) : Prop :=
  capacity (sem w) = n
  /\ 0 <= held (sem w) <= n
  /\ (blocked_in_Release (sem w) <> [] -> held (sem w) = 0 /\ is_closed (sem w) = false)
  /\ (blocked_in_Acquire (sem w) <> [] -> held (sem w) = n /\ is_closed (sem w) = false)
  /\ successes MAcquire (hist w) = successes MRelease (hist w) + held (sem w).

(** ** States used as examples *)

(** [New(2)]; goroutines 0 and 1 acquire, 3 releases, 4 acquires, and the
    Acquire of 2 finds the channel full. *)
Definition two_held_one_waiting : world :=
  mkWorld (mkSem (mkChan 2 2 false [] [2%nat]))
    [(0%nat, MAcquire, Val None); (1%nat, MAcquire, Val None);
     (3%nat, MRelease, Val None); (4%nat, MAcquire, Val None)].

(** [New(1)]; goroutine 0 acquires and goroutine 1 closes. *)
Definition one_held_closed : world :=
  mkWorld (mkSem (mkChan 1 1 true [] []))
    [(0%nat, MAcquire, Val None); (1%nat, MClose, Val None)].

(** [New(1)]; goroutine 0 acquires and the Acquire of 1 finds the channel
    full. *)
Definition one_held_one_waiting : world :=
  mkWorld (mkSem (mkChan 1 1 false [] [1%nat]))
    [(0%nat, MAcquire, Val None)].

(** [New(1)]; the Release of goroutine 0 finds the channel empty. *)
Definition one_release_waiting : world :=
  mkWorld (mkSem (mkChan 0 1 false [0%nat] [])) [].

(** [New(1)]; goroutine 0 closes. *)
Definition closed_unused : world :=
  mkWorld (mkSem (mkChan 0 1 true [] []))
    [(0%nat, MClose, Val None)].

(** ** Call sequences and the test helper *)

(** [n] calls of [Release] in a row, by the goroutines [g], [g+1], ... *)
Fixpoint releases (n : nat) (g : gid) : list (gid * meth) :=
  match n with
  | O => []
  | S k => (g, MRelease) :: releases k (S g)
  end.

(** A variable of type [chan struct{}] holds nil or a channel [make] returned.
    [New] always stores a made channel; the struct literal [&semaphore{}],
    which the package itself can write, leaves the field nil. *)
Definition chanvar : Type := option hchan.

(** [close(c)] on a channel variable: closing the nil channel panics. *)
Definition closevar (cv : chanvar) : chanvar * status unit * list wake :=
  match cv with
  | None => (None, Fin Panic, [])
  | Some ch => let '(ch', st, wk) := closechan ch in (Some ch', st, wk)
  end.

(** The method [Close] of semaphore.go run on a semaphore whose field [c]
    is the channel variable [cv]: the same body as [Close], which covers
    the made channels only. *)
Definition Close_on (cv : chanvar)
  : chanvar * status (option error) * list completion :=
  let '(cv', st, wk) := closevar cv in
  (cv', status_map Close_body st, map finish wk).

(** semaphore_test.go, [func encapsuateClose(ch chan struct{}) (panicked bool)]:
    [close(ch)] under a deferred function that sets [panicked = true] when
    [recover()] is not nil.  The goroutines the close makes runnable are
    returned as the channel reports them. *)
Definition encapsuateClose (ch : chanvar) : chanvar * status bool * list wake :=
  let '(ch', st, wk) := closevar ch in
  (ch',
   status_map (fun f => match fin_bind f (fun _ => Val false) with
                        | Val panicked => Val panicked
                        | Panic => Val true
                        end) st,
   wk).

(** Whether a channel variable holds a made channel that has been closed. *)
Definition var_closed (cv : chanvar) : bool :=
  match cv with
  | None => false
  | Some ch => closed ch
  end.

(** Who made a returned call. *)
Definition caller (k : completion) : gid := fst (fst k).

(** * Properties *)

(** ** Counting in histories *)

Lemma successes_app (m : meth) (h1 h2 : list completion) :
  successes m (h1 ++ h2) = successes m h1 + successes m h2.
Proof.
  unfold successes. rewrite filter_app, length_app. lia.
Qed.

Lemma successes_nil (m : meth) : successes m [] = 0.
Proof. reflexivity. Qed.

Lemma successes_cons (m : meth) (k : completion) (h : list completion) :
  successes m (k :: h) = (if is_ok m k then 1 else 0) + successes m h.
Proof.
  unfold successes. simpl. destruct (is_ok m k); simpl length; lia.
Qed.

Lemma successes_nonneg (m : meth) (h : list completion) : 0 <= successes m h.
Proof. unfold successes. lia. Qed.

(** The goroutines [close] makes runnable all come back with an error. *)
Lemma successes_closed_recv (m : meth) (q : list gid) :
  successes m (map finish (map (fun g => WakeRecv g false) q)) = 0.
Proof.
  induction q as [|g q IH]; [reflexivity|].
  unfold successes in *. simpl. destruct m; simpl; exact IH.
Qed.

Lemma successes_closed_send (m : meth) (q : list gid) :
  successes m (map finish (map (fun g => WakeSend g false) q)) = 0.
Proof.
  induction q as [|g q IH]; [reflexivity|].
  unfold successes in *. simpl. destruct m; simpl; exact IH.
Qed.

Ltac unfold_sem :=
  unfold inv, call, parked, invoke, Acquire, Release, Close,
    chansend, chanrecv, recv_buffered, closechan,
    capacity, held, available, is_closed, blocked_in_Acquire, blocked_in_Release in *;
  simpl in *.

Ltac split_cmp :=
  repeat match goal with
    | |- context [?a <? ?b] => destruct (Z.ltb_spec a b)
    | |- context [?a =? ?b] => destruct (Z.eqb_spec a b)
    | H : context [?a <? ?b] |- _ => destruct (Z.ltb_spec a b)
    | H : context [?a =? ?b] |- _ => destruct (Z.eqb_spec a b)
    end.

Ltac count_hist :=
  repeat (rewrite successes_app || rewrite successes_closed_recv
          || rewrite successes_closed_send || rewrite successes_cons
          || rewrite successes_nil);
  simpl.

Ltac close_inv :=
  repeat split; intros; try lia; try congruence;
  try solve [intuition (lia || congruence)].

Lemma nonempty_app_r {A : Type} (l : list A) (a : A) : l ++ [a] <> [].
Proof. destruct l; discriminate. Qed.

Lemma inv_start (n : Z) (s : semaphore) :
  New n = (Some s, None) -> 1 <= n /\ inv n (start s).
Proof.
  unfold New. destruct (Z.ltb_spec n 1); [discriminate|].
  intros E. injection E as <-. split; [assumption|].
  unfold inv, capacity, held, is_closed, blocked_in_Release, blocked_in_Acquire; simpl.
  unfold successes; simpl.
  close_inv.
Qed.

Lemma inv_call (n : Z) (w w' : world) (gm : gid * meth) :
  1 <= n -> inv n w -> call w gm = Some w' -> inv n w'.
Proof.
  intros Hn Hinv Hc. destruct gm as [g m].
  destruct w as [[[q d cl rq sq]] h].
  unfold_sem. destruct Hinv as (Hd & Hq & Hr & Hs & Hcnt). subst d.
  destruct (existsb (Nat.eqb g) (rq ++ sq)); [discriminate|].
  destruct m, cl; simpl in Hc.
  - (* Acquire, closed *)
    injection Hc as <-. simpl. count_hist. close_inv.
  - (* Acquire, open *)
    destruct rq as [|r rq].
    + split_cmp; injection Hc as <-; simpl; count_hist.
      * assert (sq = []) as -> by (destruct sq; [reflexivity|];
          assert (q = n) by (apply Hs; discriminate); lia).
        close_inv.
      * close_inv.
    + assert (q = 0) by (apply Hr; discriminate). subst q.
      assert (sq = []) as -> by (destruct sq; [reflexivity|];
          assert (0 = n) by (apply Hs; discriminate); lia).
      injection Hc as <-; simpl; count_hist.
      close_inv.
  - (* Release, closed *)
    assert (rq = []) as -> by (destruct rq; [reflexivity|];
      assert (true = false) by (apply Hr; discriminate); discriminate).
    assert (sq = []) as -> by (destruct sq; [reflexivity|];
      assert (true = false) by (apply Hs; discriminate); discriminate).
    split_cmp; try lia; injection Hc as <-; simpl; count_hist;
      close_inv.
  - (* Release, open *)
    destruct sq as [|s sq].
    + split_cmp; injection Hc as <-; simpl; count_hist.
      * assert (rq = []) as -> by (destruct rq; [reflexivity|];
          assert (q = 0) by (apply Hr; discriminate); lia).
        close_inv.
      * assert (q = 0) by lia. subst q.
        close_inv.
    + assert (q = n) by (apply Hs; discriminate). subst q.
      assert (rq = []) as -> by (destruct rq; [reflexivity|];
          assert (n = 0) by (apply Hr; discriminate); lia).
      injection Hc as <-; simpl; count_hist.
      close_inv.
  - (* Close, closed *)
    injection Hc as <-. simpl. count_hist. close_inv.
  - (* Close, open *)
    injection Hc as <-. simpl.
    rewrite !map_app. count_hist.
    close_inv.
Qed.

Lemma inv_run (n : Z) (calls : list (gid * meth)) :
  1 <= n -> forall w w', inv n w -> run w calls = Some w' -> inv n w'.
Proof.
  intros Hn. induction calls as [|gm rest IH]; simpl; intros w w' Hinv Hr.
  - now injection Hr as <-.
  - destruct (call w gm) as [w1|] eqn:E; [|discriminate].
    eapply IH; [|exact Hr]. eapply inv_call; eauto.
Qed.

Lemma inv_reachable (n : Z) (w : world) :
  reachable n w -> 1 <= n /\ inv n w.
Proof.
  intros (s & calls & HN & Hr).
  destruct (inv_start n s HN) as [Hn Hi].
  split; [assumption|]. eapply inv_run; eauto.
Qed.

(** ** What one call does, case by case *)

Section OneCall.
Variable g : gid.
Variable s : semaphore.

Lemma Acquire_closed :
  is_closed s = true -> Acquire g s = (s, Fin (Val (Some ErrUnusable)), []).
Proof.
  destruct s as [[q d cl rq sq]]. unfold_sem. intros ->. reflexivity.
Qed.

Lemma Close_closed :
  is_closed s = true -> Close s = (s, Fin (Val (Some ErrAlreadyClosed)), []).
Proof.
  destruct s as [[q d cl rq sq]]. unfold_sem. intros ->. reflexivity.
Qed.

(** An open semaphore is closed without an error, and every goroutine parked
    on it comes back with [ErrUnusable]: the receivers because [ok] is
    false, the senders because their send panics and [Acquire] recovers. *)
Lemma Close_open :
  is_closed s = false ->
  Close s =
    (mkSem (mkChan (held s) (capacity s) true [] []),
     Fin (Val None),
     map (fun r => (r, MRelease, Val (Some ErrUnusable))) (blocked_in_Release s)
     ++ map (fun a => (a, MAcquire, Val (Some ErrUnusable))) (blocked_in_Acquire s)).
Proof.
  destruct s as [[q d cl rq sq]]. unfold_sem. intros ->. simpl.
  rewrite map_app, !map_map. reflexivity.
Qed.

Lemma Release_closed_empty :
  is_closed s = true -> held s = 0 ->
  Release g s = (s, Fin (Val (Some ErrUnusable)), []).
Proof.
  destruct s as [[q d cl rq sq]]. unfold_sem. intros -> ->. reflexivity.
Qed.

Lemma Release_closed_held :
  is_closed s = true -> 0 < held s ->
  Release g s =
    (mkSem (mkChan (held s - 1) (capacity s) true
              (blocked_in_Release s) (blocked_in_Acquire s)),
     Fin (Val None), []).
Proof.
  destruct s as [[q d cl rq sq]]. unfold_sem. intros -> Hq.
  split_cmp; try lia. reflexivity.
Qed.

(** The only way [Release] comes back with an error at once. *)
Lemma Release_error_inv (s' : semaphore) (e : error) (wk : list completion) :
  Release g s = (s', Fin (Val (Some e)), wk) ->
  is_closed s = true /\ held s = 0 /\ e = ErrUnusable /\ s' = s /\ wk = [].
Proof.
  destruct s as [[q d cl rq sq]]. unfold_sem.
  destruct cl; [|destruct sq]; split_cmp; simpl; intros E;
    try discriminate; injection E as <- <- <-; subst; auto.
Qed.

Lemma Release_no_panic (s' : semaphore) (wk : list completion) :
  Release g s <> (s', Fin Panic, wk).
Proof.
  destruct s as [[q d cl rq sq]]. unfold_sem.
  destruct cl; [|destruct sq]; split_cmp; simpl; intros E; discriminate.
Qed.

Lemma Close_returns (s' : semaphore) (st : status (option error)) (wk : list completion) :
  Close s = (s', st, wk) -> exists e, st = Fin (Val e).
Proof.
  destruct (is_closed s) eqn:E.
  - rewrite (Close_closed E). intros H; injection H as <- <- <-. eauto.
  - rewrite (Close_open E). intros H; injection H as <- <- <-. eauto.
Qed.

End OneCall.

Ltac in_small :=
  let k := fresh "k" in
  let Hk := fresh "Hk" in
  intros k Hk; simpl in Hk;
  repeat (destruct Hk as [Hk|Hk]; [subst k; simpl; discriminate|]);
  contradiction.

(** No call panics, and no goroutine a call makes runnable panics. *)
Lemma invoke_no_panic (m : meth) (g : gid) (s s' : semaphore)
      (st : status (option error)) (wk : list completion) :
  invoke m g s = (s', st, wk) ->
  st <> Fin Panic /\ forall k, In k wk -> snd k <> Panic.
Proof.
  destruct s as [[q d cl rq sq]]. destruct m; unfold_sem.
  - destruct cl; [|destruct rq]; split_cmp; simpl; intros E;
      injection E as <- <- <-; (split; [discriminate|]); in_small.
  - destruct cl; [|destruct sq]; split_cmp; simpl; intros E;
      injection E as <- <- <-; (split; [discriminate|]); in_small.
  - destruct cl; simpl; intros E; injection E as <- <- <-;
      (split; [discriminate|]); [in_small|].
    intros k Hk. rewrite map_app, !map_map in Hk. simpl in Hk.
    apply in_app_or in Hk. destruct Hk as [Hk|Hk];
      apply in_map_iff in Hk; destruct Hk as (x & <- & _); discriminate.
Qed.

Lemma hist_no_panic (calls : list (gid * meth)) :
  forall w w', run w calls = Some w' ->
  (forall k, In k (hist w) -> snd k <> Panic) ->
  forall k, In k (hist w') -> snd k <> Panic.
Proof.
  induction calls as [|[g m] rest IH]; simpl; intros w w' Hr Hw.
  - now injection Hr as <-.
  - unfold call in Hr. destruct (parked (sem w) g); [discriminate|].
    destruct (invoke m g (sem w)) as [[s1 st] wk] eqn:E.
    destruct (invoke_no_panic _ _ _ _ _ _ E) as [Hst Hwk].
    eapply IH; [exact Hr|]. simpl. intros k Hk.
    apply in_app_or in Hk. destruct Hk as [Hk|Hk]; [now apply Hw|].
    apply in_app_or in Hk. destruct Hk as [Hk|Hk]; [|now apply Hwk].
    destruct st as [f|]; simpl in Hk; [|contradiction].
    destruct Hk as [<-|[]]. simpl. intros ->. now apply Hst.
Qed.

(** ** Runs *)

(** On an open semaphore with nobody parked and room for [k] more permits,
    [k] calls of [Acquire] in a row all return nil at once. *)
Lemma run_acquires (k : nat) :
  forall (q d : Z) (g0 : gid) (h : list completion),
    q + Z.of_nat k <= d ->
    run (mkWorld (mkSem (mkChan q d false [] [])) h) (acquires k g0)
    = Some (mkWorld (mkSem (mkChan (q + Z.of_nat k) d false [] []))
              (h ++ map (fun g => (g, MAcquire, Val None)) (seq g0 k))).
Proof.
  induction k as [|k IH]; intros q d g0 h Hle.
  - simpl. rewrite Z.add_0_r, app_nil_r. reflexivity.
  - cbn [acquires run]. unfold call, parked, invoke, Acquire, chansend.
    cbn [sem c closed recvq sendq qcount dataqsiz blocked_in_Release
           blocked_in_Acquire app existsb hist].
    destruct (Z.ltb_spec q d); [|lia].
    cbn [status_map own map app]. rewrite IH by lia.
    cbn [seq map]. rewrite <- app_assoc. cbn [app].
    replace (q + 1 + Z.of_nat k) with (q + Z.of_nat (S k)) by lia.
    reflexivity.
Qed.

(** A full open semaphore parks the next [Acquire]. *)
Lemma Acquire_full (g : gid) (d : Z) (sq : list gid) :
  Acquire g (mkSem (mkChan d d false [] sq))
  = (mkSem (mkChan d d false [] (sq ++ [g])), Park, []).
Proof.
  unfold Acquire, chansend. simpl. rewrite Z.ltb_irrefl. reflexivity.
Qed.

(** A [Release] on an open semaphore with a parked [Acquire] lets the oldest
    one return nil; the number of held permits stays as it was. *)
Lemma Release_handoff (g a : gid) (q d : Z) (rq sq : list gid) :
  Release g (mkSem (mkChan q d false rq (a :: sq)))
  = (mkSem (mkChan q d false rq sq), Fin (Val None), [(a, MAcquire, Val None)]).
Proof. reflexivity. Qed.

(** A parked [Release] comes back with an error only when the semaphore is
    closed under it; the channel then holds nothing. *)
Lemma woken_Release_error (n : Z) (w : world) (m : meth) (h r : gid)
      (s' : semaphore) (st : status (option error)) (wk : list completion)
      (e : error) :
  inv n w ->
  invoke m h (sem w) = (s', st, wk) ->
  In (r, MRelease, Val (Some e)) wk ->
  m = MClose /\ e = ErrUnusable /\ is_closed s' = true /\ held s' = 0.
Proof.
  intros (_ & _ & Hrq & _) E Hin.
    destruct (is_closed (sem w)) eqn:Hcl.
    + (* closed: nobody is made runnable *)
      destruct m; simpl in E.
      * rewrite (Acquire_closed h _ Hcl) in E. injection E as <- <- <-.
        contradiction.
      * exfalso. revert E Hin. destruct (sem w) as [[q d cl rq sq]].
        unfold_sem. subst cl. split_cmp; intros E; injection E as <- <- <-;
          contradiction.
      * rewrite (Close_closed _ Hcl) in E. injection E as <- <- <-.
        contradiction.
    + destruct m; simpl in E.
      * exfalso. revert E Hin. destruct (sem w) as [[q d cl rq sq]].
        unfold_sem. subst cl. destruct rq; split_cmp; intros E;
          injection E as <- <- <-; simpl; intros Hin;
          repeat (destruct Hin as [Hin|Hin]; [discriminate|]); contradiction.
      * exfalso. revert E Hin. destruct (sem w) as [[q d cl rq sq]].
        unfold_sem. subst cl. destruct sq; split_cmp; intros E;
          injection E as <- <- <-; simpl; intros Hin;
          repeat (destruct Hin as [Hin|Hin]; [discriminate|]); contradiction.
      * rewrite (Close_open _ Hcl) in E. injection E as <- <- <-.
        apply in_app_or in Hin. destruct Hin as [Hin|Hin];
          apply in_map_iff in Hin; destruct Hin as (x & Ex & Hx);
          [|discriminate].
        injection Ex as -> <-.
        assert (held (sem w) = 0) as Hz.
        { apply Hrq. intros E0. rewrite E0 in Hx. contradiction. }
        repeat split. exact Hz.
Qed.

(** * The claims *)

(** C2.  On a semaphore that is already closed, [Acquire] returns
    [ErrUnusable] at once (the caller is not parked) and the semaphore is left
    exactly as it was; no other goroutine is affected. *)
Theorem Acquire_on_closed_fails_fast (g : gid) (s : semaphore) :
  is_closed s = true ->
  Acquire g s = (s, Fin (Val (Some ErrUnusable)), []).
Proof. apply Acquire_closed. Qed.

Lemma Acquire_on_closed_fails_fast_witness :
  Acquire 3%nat (mkSem (mkChan 1 2 true [] []))
  = (mkSem (mkChan 1 2 true [] []), Fin (Val (Some ErrUnusable)), []).
Proof.
  apply (Acquire_on_closed_fails_fast 3%nat (mkSem (mkChan 1 2 true [] []))).
  reflexivity.
Defined.

(** C7.  On a semaphore fresh from [New], the first [Close] returns nil and
    leaves it closed; the second [Close] returns [ErrAlreadyClosed] and leaves
    the state the first one produced untouched. *)
Theorem Close_twice (n : Z) (s : semaphore) :
  New n = (Some s, None) ->
  exists s1,
    is_closed s = false
    /\ Close s = (s1, Fin (Val None), [])
    /\ is_closed s1 = true
    /\ Close s1 = (s1, Fin (Val (Some ErrAlreadyClosed)), []).
Proof.
  unfold New. destruct (n <? 1); [discriminate|].
  intros E. injection E as <-.
  exists (mkSem (mkChan 0 n true [] [])). repeat split.
Qed.

Lemma Close_twice_witness :
  exists s1,
    is_closed (mkSem (makechan 1)) = false
    /\ Close (mkSem (makechan 1)) = (s1, Fin (Val None), [])
    /\ is_closed s1 = true
    /\ Close s1 = (s1, Fin (Val (Some ErrAlreadyClosed)), []).
Proof.
  apply (Close_twice 1 (mkSem (makechan 1))). reflexivity.
Defined.

(** C4.  For a semaphore made by [New n] and any sequence of calls, the
    permits outstanding (successful Acquires minus successful Releases in the
    history) are the elements held in the channel, they lie between 0 and
    [n], and the available count [capacity - held] lies between 0 and the
    capacity.  It holds in every reachable state, open or closed. *)
Theorem permits_within_capacity (n : Z) (s : semaphore)
        (calls : list (gid * meth)) (w : world) :
  New n = (Some s, None) ->
  run (start s) calls = Some w ->
  1 <= n
  /\ capacity (sem w) = n
  /\ outstanding w = held (sem w)
  /\ 0 <= outstanding w <= n
  /\ available (sem w) = n - outstanding w
  /\ 0 <= available (sem w) <= capacity (sem w).
Proof.
  intros HN Hr.
  destruct (inv_reachable n w (ex_intro _ s (ex_intro _ calls (conj HN Hr))))
    as (Hn & Hc & Hq & _ & _ & Hcnt).
  unfold outstanding, available. rewrite Hcnt, Hc. repeat split; lia.
Qed.

Lemma permits_within_capacity_witness :
  1 <= 2
  /\ capacity (sem two_held_one_waiting) = 2
  /\ outstanding two_held_one_waiting = held (sem two_held_one_waiting)
  /\ 0 <= outstanding two_held_one_waiting <= 2
  /\ available (sem two_held_one_waiting) = 2 - outstanding two_held_one_waiting
  /\ 0 <= available (sem two_held_one_waiting)
       <= capacity (sem two_held_one_waiting).
Proof.
  apply (permits_within_capacity 2 (mkSem (makechan 2))
           [(0%nat, MAcquire); (1%nat, MAcquire); (3%nat, MRelease);
            (4%nat, MAcquire); (2%nat, MAcquire)]).
  - reflexivity.
  - reflexivity.
Defined.

(** C3.  In any reachable state where the semaphore is closed and a permit is
    outstanding (granted and not yet given back; since a closed semaphore
    grants none, it was granted before the Close), [Release] returns nil at
    once and takes that permit out of the channel. *)
Theorem Release_after_Close_succeeds (n : Z) (s : semaphore)
        (calls : list (gid * meth)) (w : world) (g : gid) :
  New n = (Some s, None) ->
  run (start s) calls = Some w ->
  is_closed (sem w) = true ->
  0 < outstanding w ->
  exists s',
    Release g (sem w) = (s', Fin (Val None), [])
    /\ is_closed s' = true
    /\ held s' = held (sem w) - 1.
Proof.
  intros HN Hr Hcl Hout.
  destruct (inv_reachable n w (ex_intro _ s (ex_intro _ calls (conj HN Hr))))
    as (_ & _ & _ & _ & _ & Hcnt).
  unfold outstanding in Hout. rewrite Hcnt in Hout.
  assert (0 < held (sem w)) as Hheld by lia.
  rewrite (Release_closed_held g _ Hcl Hheld).
  eexists. repeat split.
Qed.

Lemma Release_after_Close_succeeds_witness :
  exists s',
    Release 0%nat (sem one_held_closed) = (s', Fin (Val None), [])
    /\ is_closed s' = true
    /\ held s' = held (sem one_held_closed) - 1.
Proof.
  apply (Release_after_Close_succeeds 1 (mkSem (makechan 1))
           [(0%nat, MAcquire); (1%nat, MClose)] one_held_closed 0%nat).
  - reflexivity.
  - reflexivity.
  - reflexivity.
  - vm_compute. reflexivity.
Defined.

(** C1.  In any reachable state with goroutine [g] parked inside [Acquire],
    a call of [Close] returns nil and makes [g] runnable again: [g]'s Acquire
    returns [ErrUnusable], and that is the only way it returns.  Nobody stays
    parked on the closed semaphore, no completion of the step counts as a
    granted permit, and the held and available counts are what they were
    before the call. *)
Theorem Close_unblocks_Acquire (n : Z) (s : semaphore)
        (calls : list (gid * meth)) (w : world) (g : gid) :
  New n = (Some s, None) ->
  run (start s) calls = Some w ->
  In g (blocked_in_Acquire (sem w)) ->
  exists s' wk,
    Close (sem w) = (s', Fin (Val None), wk)
    /\ In (g, MAcquire, Val (Some ErrUnusable)) wk
    /\ (forall f, In (g, MAcquire, f) wk -> f = Val (Some ErrUnusable))
    /\ successes MAcquire wk = 0
    /\ is_closed s' = true
    /\ blocked_in_Acquire s' = [] /\ blocked_in_Release s' = []
    /\ held s' = held (sem w)
    /\ available s' = available (sem w).
Proof.
  intros HN Hr Hin.
  destruct (inv_reachable n w (ex_intro _ s (ex_intro _ calls (conj HN Hr))))
    as (_ & _ & _ & _ & Hs & _).
  assert (is_closed (sem w) = false) as Hopen.
  { apply Hs. intros E. rewrite E in Hin. contradiction. }
  rewrite (Close_open _ Hopen). do 2 eexists. split; [reflexivity|].
  split; [|split; [|split]].
  - apply in_or_app. right.
    apply in_map_iff. exists g. split; [reflexivity|assumption].
  - intros f Hf. apply in_app_or in Hf. destruct Hf as [Hf|Hf];
      apply in_map_iff in Hf; destruct Hf as (x & E & _); congruence.
  - rewrite successes_app.
    assert (forall (m : meth) (e : fin (option error)) (l : list gid),
               e <> Val None ->
               successes MAcquire (map (fun x => (x, m, e)) l) = 0) as Hz.
    { intros m e l He. induction l as [|x l IH]; [reflexivity|].
      simpl. rewrite successes_cons, IH. simpl.
      destruct e as [[?|]|]; try reflexivity. now elim He. }
    rewrite !Hz by discriminate. reflexivity.
  - repeat split.
Qed.

Lemma Close_unblocks_Acquire_witness :
  exists s' wk,
    Close (sem one_held_one_waiting) = (s', Fin (Val None), wk)
    /\ In (1%nat, MAcquire, Val (Some ErrUnusable)) wk
    /\ (forall f, In (1%nat, MAcquire, f) wk -> f = Val (Some ErrUnusable))
    /\ successes MAcquire wk = 0
    /\ is_closed s' = true
    /\ blocked_in_Acquire s' = [] /\ blocked_in_Release s' = []
    /\ held s' = held (sem one_held_one_waiting)
    /\ available s' = available (sem one_held_one_waiting).
Proof.
  apply (Close_unblocks_Acquire 1 (mkSem (makechan 1))
           [(0%nat, MAcquire); (1%nat, MAcquire)] one_held_one_waiting 1%nat).
  - reflexivity.
  - reflexivity.
  - simpl. left. reflexivity.
Defined.

(** C8.  [New size] fails, with the size error and no semaphore, exactly when
    [size < 1].  For [size >= 1] it returns an open semaphore with all [size]
    permits available, on which [size] calls of [Acquire] in a row each
    return nil at once; the next [Acquire] parks its caller, stays parked
    while further Acquires arrive, and returns nil as soon as some goroutine
    calls [Release]. *)
Theorem New_admits_exactly_size (size : Z) :
  (size < 1 <-> New size = (None, Some ErrSize))
  /\ (1 <= size ->
      exists s,
        New size = (Some s, None)
        /\ is_closed s = false
        /\ capacity s = size
        /\ available s = size
        /\ forall g0 : gid,
          exists w,
            run (start s) (acquires (Z.to_nat size) g0) = Some w
            /\ hist w = map (fun a => (a, MAcquire, Val None))
                          (seq g0 (Z.to_nat size))
            /\ available (sem w) = 0
            /\ forall g : gid,
              exists sb,
                Acquire g (sem w) = (sb, Park, [])
                /\ blocked_in_Acquire sb = [g]
                /\ held sb = size
                /\ (forall g2 : gid,
                       exists sb2, Acquire g2 sb = (sb2, Park, [])
                                   /\ blocked_in_Acquire sb2 = [g; g2])
                /\ forall r : gid,
                    Release r sb
                    = (sem w, Fin (Val None), [(g, MAcquire, Val None)])).
Proof.
  split.
  - unfold New. destruct (Z.ltb_spec size 1); split; intros H';
      try reflexivity; try lia; discriminate.
  - intros Hle. exists (mkSem (makechan size)).
    unfold New. destruct (Z.ltb_spec size 1); [lia|].
    split; [reflexivity|]. split; [reflexivity|]. split; [reflexivity|].
    split; [unfold available, capacity, held; simpl; lia|].
    intros g0. eexists. split.
    + unfold start, makechan. rewrite run_acquires by lia. reflexivity.
    + rewrite Z2Nat.id by lia. simpl.
      split; [reflexivity|].
      split; [unfold available, capacity, held; simpl; lia|].
      intros g. eexists. split; [apply Acquire_full|].
      split; [reflexivity|]. split; [reflexivity|]. split.
      * intros g2. eexists. split; [apply Acquire_full|reflexivity].
      * intros r. apply Release_handoff.
Qed.

Lemma New_admits_exactly_size_witness :
  exists s,
    New 2 = (Some s, None)
    /\ is_closed s = false
    /\ capacity s = 2
    /\ available s = 2
    /\ forall g0 : gid,
      exists w,
        run (start s) (acquires (Z.to_nat 2) g0) = Some w
        /\ hist w = map (fun a => (a, MAcquire, Val None))
                      (seq g0 (Z.to_nat 2))
        /\ available (sem w) = 0
        /\ forall g : gid,
          exists sb,
            Acquire g (sem w) = (sb, Park, [])
            /\ blocked_in_Acquire sb = [g]
            /\ held sb = 2
            /\ (forall g2 : gid,
                   exists sb2, Acquire g2 sb = (sb2, Park, [])
                               /\ blocked_in_Acquire sb2 = [g; g2])
            /\ forall r : gid,
                Release r sb
                = (sem w, Fin (Val None), [(g, MAcquire, Val None)]).
Proof.
  apply (proj2 (New_admits_exactly_size 2)). lia.
Defined.

(** C9.  In any reachable state, no call in the history has panicked, and
    whichever method a goroutine calls next, neither that call nor any call
    it makes runnable panics: each returns nil or an error.  In particular, on
    a closed semaphore [Close] returns [ErrAlreadyClosed] and [Release]
    returns (nil or an error), both at once. *)
Theorem calls_never_panic (n : Z) (s : semaphore)
        (calls : list (gid * meth)) (w : world) :
  New n = (Some s, None) ->
  run (start s) calls = Some w ->
  (forall k, In k (hist w) -> snd k <> Panic)
  /\ (forall (m : meth) (g : gid) s' st wk,
         invoke m g (sem w) = (s', st, wk) ->
         st <> Fin Panic /\ forall k, In k wk -> snd k <> Panic)
  /\ (is_closed (sem w) = true ->
      Close (sem w) = (sem w, Fin (Val (Some ErrAlreadyClosed)), []))
  /\ (is_closed (sem w) = true ->
      forall g : gid, exists s' e, Release g (sem w) = (s', Fin (Val e), [])).
Proof.
  intros HN Hr. split; [|split; [|split]].
  - apply (hist_no_panic calls (start s) w Hr). simpl. intros k [].
  - intros m g s' st wk. apply invoke_no_panic.
  - apply Close_closed.
  - intros Hcl g.
    destruct (inv_reachable n w (ex_intro _ s (ex_intro _ calls (conj HN Hr))))
      as (_ & _ & Hq & _).
    destruct (Z.eq_dec (held (sem w)) 0) as [Hz|Hz].
    + rewrite (Release_closed_empty g _ Hcl Hz). eauto.
    + rewrite (Release_closed_held g (sem w) Hcl) by lia. eauto.
Qed.

Lemma calls_never_panic_witness :
  (forall k, In k (hist one_held_closed) -> snd k <> Panic)
  /\ (forall (m : meth) (g : gid) s' st wk,
         invoke m g (sem one_held_closed) = (s', st, wk) ->
         st <> Fin Panic /\ forall k, In k wk -> snd k <> Panic)
  /\ (is_closed (sem one_held_closed) = true ->
      Close (sem one_held_closed)
      = (sem one_held_closed, Fin (Val (Some ErrAlreadyClosed)), []))
  /\ (is_closed (sem one_held_closed) = true ->
      forall g : gid,
      exists s' e, Release g (sem one_held_closed) = (s', Fin (Val e), [])).
Proof.
  apply (calls_never_panic 1 (mkSem (makechan 1))
           [(0%nat, MAcquire); (1%nat, MClose)] one_held_closed).
  - reflexivity.
  - reflexivity.
Defined.

(** C10.  [Release] returns an error at once exactly when the semaphore is
    closed and the channel holds no permit; the error is [ErrUnusable], the
    state is left as it was, and the call does not panic.  A [Release] that
    had parked (open semaphore, nothing held) and is made runnable returns an
    error only through a [Close], with [ErrUnusable], on a semaphore that is
    by then closed and holds no permit.  No other Release returns an error. *)
Theorem Release_error_exactly_closed_and_empty (n : Z) (s : semaphore)
        (calls : list (gid * meth)) (w : world) (g : gid) :
  New n = (Some s, None) ->
  run (start s) calls = Some w ->
  ((is_closed (sem w) = true /\ held (sem w) = 0)
   <-> exists s' e wk, Release g (sem w) = (s', Fin (Val (Some e)), wk))
  /\ (forall s' e wk,
         Release g (sem w) = (s', Fin (Val (Some e)), wk) ->
         e = ErrUnusable /\ s' = sem w /\ wk = [])
  /\ (forall s' wk, Release g (sem w) <> (s', Fin Panic, wk))
  /\ (forall (m : meth) (h r : gid) s' st wk e,
         invoke m h (sem w) = (s', st, wk) ->
         In (r, MRelease, Val (Some e)) wk ->
         m = MClose /\ e = ErrUnusable /\ is_closed s' = true /\ held s' = 0).
Proof.
  intros HN Hr. split; [|split; [|split]].
  - split.
    + intros [Hcl Hz]. rewrite (Release_closed_empty g _ Hcl Hz). eauto.
    + intros (s' & e & wk & E).
      destruct (Release_error_inv g (sem w) s' e wk E) as (? & ? & _). auto.
  - intros s' e wk E.
    destruct (Release_error_inv g (sem w) s' e wk E) as (_ & _ & ? & ? & ?). auto.
  - intros s' wk. apply Release_no_panic.
  - intros m h r s' st wk e E Hin.
    destruct (inv_reachable n w (ex_intro _ s (ex_intro _ calls (conj HN Hr))))
      as (_ & Hinv).
    exact (woken_Release_error n w m h r s' st wk e Hinv E Hin).
Qed.

Lemma Release_error_exactly_closed_and_empty_witness :
  ((is_closed (sem closed_unused) = true /\ held (sem closed_unused) = 0)
   <-> exists s' e wk,
       Release 5%nat (sem closed_unused) = (s', Fin (Val (Some e)), wk))
  /\ (forall s' e wk,
         Release 5%nat (sem closed_unused) = (s', Fin (Val (Some e)), wk) ->
         e = ErrUnusable /\ s' = sem closed_unused /\ wk = [])
  /\ (forall s' wk, Release 5%nat (sem closed_unused) <> (s', Fin Panic, wk))
  /\ (forall (m : meth) (h r : gid) s' st wk e,
         invoke m h (sem closed_unused) = (s', st, wk) ->
         In (r, MRelease, Val (Some e)) wk ->
         m = MClose /\ e = ErrUnusable /\ is_closed s' = true /\ held s' = 0).
Proof.
  apply (Release_error_exactly_closed_and_empty 1 (mkSem (makechan 1))
           [(0%nat, MClose)] closed_unused 5%nat).
  - reflexivity.
  - reflexivity.
Defined.

(** C6, as stated, does not hold.  The claim says that having been closed is
    never by itself enough for [Release] to return [ErrUnusable]; read on the
    code: on a semaphore [New] returned and on which nothing but [Close] has
    been called, [Release] never returns [ErrUnusable].  It does: after
    [New(1)] and one [Close], with the channel still in place, [Release]
    returns [ErrUnusable], as the comment on [Releaser] says it would. *)
Lemma Release_unusable_after_Close_alone :
  ~ (forall (n : Z) (s : semaphore) (calls : list (gid * meth)) (w : world)
            (g : gid),
        New n = (Some s, None) ->
        run (start s) calls = Some w ->
        (forall gm, In gm calls -> snd gm = MClose) ->
        forall s' wk,
          Release g (sem w) <> (s', Fin (Val (Some ErrUnusable)), wk)).
Proof.
  intros H.
  apply (H 1 (mkSem (makechan 1)) [(0%nat, MClose)] closed_unused 5%nat
           eq_refl eq_refl) with (s' := sem closed_unused) (wk := []).
  - intros gm [<-|[]]. reflexivity.
  - reflexivity.
Qed.

(** C6, amended.  [Release] returns [ErrUnusable] only when the semaphore is
    closed and the channel holds no permit; that is so for the Release that
    returns at once and for the Release that had parked and is made
    runnable.  Being closed while a permit is still held is never enough: on
    a closed semaphore that holds a permit, [Release] returns nil. *)
Theorem Release_unusable_only_when_closed_and_drained (n : Z) (s : semaphore)
        (calls : list (gid * meth)) (w : world) (g : gid) :
  New n = (Some s, None) ->
  run (start s) calls = Some w ->
  (forall s' wk,
      Release g (sem w) = (s', Fin (Val (Some ErrUnusable)), wk) ->
      is_closed (sem w) = true /\ held (sem w) = 0)
  /\ (forall (m : meth) (h r : gid) s' st wk,
         invoke m h (sem w) = (s', st, wk) ->
         In (r, MRelease, Val (Some ErrUnusable)) wk ->
         is_closed s' = true /\ held s' = 0)
  /\ (is_closed (sem w) = true -> 0 < held (sem w) ->
      exists s', Release g (sem w) = (s', Fin (Val None), [])).
Proof.
  intros HN Hr. split; [|split].
  - intros s' wk E.
    destruct (Release_error_inv g (sem w) s' ErrUnusable wk E) as (? & ? & _).
    auto.
  - intros m h r s' st wk E Hin.
    destruct (inv_reachable n w (ex_intro _ s (ex_intro _ calls (conj HN Hr))))
      as (_ & Hinv).
    destruct (woken_Release_error n w m h r s' st wk ErrUnusable Hinv E Hin)
      as (_ & _ & ? & ?).
    auto.
  - intros Hcl Hpos. rewrite (Release_closed_held g (sem w) Hcl Hpos). eauto.
Qed.

(** The three parts at states that meet their premises: [Release] returning
    [ErrUnusable] at once after [New(1); Close]; a parked [Release] made
    runnable by [Close]; [Release] on a closed semaphore holding a permit. *)
Lemma Release_unusable_only_when_closed_and_drained_witness :
  (is_closed (sem closed_unused) = true /\ held (sem closed_unused) = 0)
  /\ (is_closed (mkSem (mkChan 0 1 true [] [])) = true
      /\ held (mkSem (mkChan 0 1 true [] [])) = 0)
  /\ (exists s',
         Release 0%nat (sem one_held_closed) = (s', Fin (Val None), [])).
Proof.
  split; [|split].
  - apply (proj1 (Release_unusable_only_when_closed_and_drained
                    1 (mkSem (makechan 1)) [(0%nat, MClose)] closed_unused
                    5%nat eq_refl eq_refl)
             (sem closed_unused) []).
    reflexivity.
  - apply (proj1 (proj2 (Release_unusable_only_when_closed_and_drained
                           1 (mkSem (makechan 1)) [(0%nat, MRelease)]
                           one_release_waiting 5%nat eq_refl eq_refl))
             MClose 1%nat 0%nat
             (mkSem (mkChan 0 1 true [] []))
             (Fin (Val None))
             [(0%nat, MRelease, Val (Some ErrUnusable))]).
    + reflexivity.
    + simpl. left. reflexivity.
  - apply (proj2 (proj2 (Release_unusable_only_when_closed_and_drained
                           1 (mkSem (makechan 1))
                           [(0%nat, MAcquire); (1%nat, MClose)]
                           one_held_closed 0%nat eq_refl eq_refl))).
    + reflexivity.
    + vm_compute. reflexivity.
Defined.

(** C5.  What the code does where the claim says Release does not block:
    the semaphore [New(1)] returns is open and holds no permit, and a
    [Release] called on it by goroutine [g] parks [g] in the receive queue;
    the call has not returned, so the history of returned calls stays empty.
    [Close] on the same semaphore returns nil at once. *)
Theorem Release_parks_on_unused_semaphore (g : gid) :
  exists s,
    New 1 = (Some s, None)
    /\ is_closed s = false
    /\ held s = 0
    /\ Release g s = (mkSem (mkChan 0 1 false [g] []), Park, [])
    /\ run (start s) [(g, MRelease)]
       = Some (mkWorld (mkSem (mkChan 0 1 false [g] [])) [])
    /\ Close s = (mkSem (mkChan 0 1 true [] []), Fin (Val None), []).
Proof.
  exists (mkSem (makechan 1)). repeat split.
Qed.

(** * Further properties of the package *)

(** ** Lemmas on runs *)

Lemma run_app (l1 l2 : list (gid * meth)) :
  forall w, run w (l1 ++ l2)
            = match run w l1 with
              | Some w1 => run w1 l2
              | None => None
              end.
Proof.
  induction l1 as [|gm l1 IH]; intros w; simpl; [reflexivity|].
  destruct (call w gm); [apply IH|reflexivity].
Qed.

(** On an open semaphore with nobody parked and at least [k] permits held,
    [k] calls of [Release] in a row all return nil at once. *)
Lemma run_releases (k : nat) :
  forall (q d : Z) (g0 : gid) (h : list completion),
    Z.of_nat k <= q ->
    run (mkWorld (mkSem (mkChan q d false [] [])) h) (releases k g0)
    = Some (mkWorld (mkSem (mkChan (q - Z.of_nat k) d false [] []))
              (h ++ map (fun g => (g, MRelease, Val None)) (seq g0 k))).
Proof.
  induction k as [|k IH]; intros q d g0 h Hle.
  - simpl. rewrite Z.sub_0_r, app_nil_r. reflexivity.
  - cbn [releases run]. unfold call, parked, invoke, Release, chanrecv, recv_buffered.
    cbn [sem c closed recvq sendq qcount dataqsiz blocked_in_Release
           blocked_in_Acquire app existsb hist].
    destruct (Z.ltb_spec 0 q); [|lia].
    cbn [status_map own map app]. rewrite IH by lia.
    cbn [seq map]. rewrite <- app_assoc. cbn [app].
    replace (q - 1 - Z.of_nat k) with (q - Z.of_nat (S k)) by lia.
    reflexivity.
Qed.

(** One call on a closed semaphore: it stays closed and no Acquire in the
    step returns nil. *)
Lemma call_closed (w w' : world) (gm : gid * meth) :
  is_closed (sem w) = true ->
  call w gm = Some w' ->
  is_closed (sem w') = true
  /\ successes MAcquire (hist w') = successes MAcquire (hist w).
Proof.
  destruct gm as [g m]. destruct w as [[[q d cl rq sq]] h].
  unfold_sem. intros ->.
  destruct (existsb (Nat.eqb g) (rq ++ sq)); [discriminate|].
  destruct m; simpl; split_cmp; intros E; injection E as <-; simpl;
    count_hist; split; try reflexivity; lia.
Qed.

(** One call never changes the capacity. *)
Lemma call_capacity (w w' : world) (gm : gid * meth) :
  call w gm = Some w' -> capacity (sem w') = capacity (sem w).
Proof.
  destruct gm as [g m]. destruct w as [[[q d cl rq sq]] h].
  unfold_sem.
  destruct (existsb (Nat.eqb g) (rq ++ sq)); [discriminate|].
  destruct m, cl; simpl; try destruct rq; try destruct sq; split_cmp;
    intros E; injection E as <-; reflexivity.
Qed.

(** ** Shutdown is permanent *)

(** X1.  Whatever calls are made, from any state: the capacity fixed by
    [make] never changes, and a closed semaphore stays closed (no method
    reopens the channel). *)
Theorem closed_forever_capacity_fixed (calls : list (gid * meth)) (w w' : world) :
  run w calls = Some w' ->
  capacity (sem w') = capacity (sem w)
  /\ (is_closed (sem w) = true -> is_closed (sem w') = true).
Proof.
  revert w. induction calls as [|gm rest IH]; simpl; intros w Hr.
  - injection Hr as <-. auto.
  - destruct (call w gm) as [w1|] eqn:E; [|discriminate].
    destruct (IH w1 Hr) as [Hc Hcl]. split.
    + rewrite Hc. exact (call_capacity w w1 gm E).
    + intros H. apply Hcl. exact (proj1 (call_closed w w1 gm H E)).
Qed.

Lemma closed_forever_capacity_fixed_witness :
  capacity (sem (mkWorld (mkSem (mkChan 0 1 true [] []))
                   (hist one_held_closed
                    ++ [(0%nat, MRelease, Val None);
                        (2%nat, MAcquire, Val (Some ErrUnusable));
                        (0%nat, MRelease, Val (Some ErrUnusable));
                        (3%nat, MClose, Val (Some ErrAlreadyClosed))])))
  = capacity (sem one_held_closed)
  /\ (is_closed (sem one_held_closed) = true ->
      is_closed (sem (mkWorld (mkSem (mkChan 0 1 true [] []))
                        (hist one_held_closed
                         ++ [(0%nat, MRelease, Val None);
                             (2%nat, MAcquire, Val (Some ErrUnusable));
                             (0%nat, MRelease, Val (Some ErrUnusable));
                             (3%nat, MClose, Val (Some ErrAlreadyClosed))])))
      = true).
Proof.
  apply (closed_forever_capacity_fixed
           [(0%nat, MRelease); (2%nat, MAcquire); (0%nat, MRelease);
            (3%nat, MClose)] one_held_closed).
  reflexivity.
Defined.

(** X2.  Once the semaphore is closed, no Acquire ever returns nil again:
    over any further calls the number of successful Acquires in the history
    stays what it was. *)
Theorem no_permit_granted_after_Close (calls : list (gid * meth)) (w w' : world) :
  is_closed (sem w) = true ->
  run w calls = Some w' ->
  successes MAcquire (hist w') = successes MAcquire (hist w).
Proof.
  revert w. induction calls as [|gm rest IH]; simpl; intros w Hcl Hr.
  - now injection Hr as <-.
  - destruct (call w gm) as [w1|] eqn:E; [|discriminate].
    destruct (call_closed w w1 gm Hcl E) as [Hcl1 Hs].
    rewrite (IH w1 Hcl1 Hr). exact Hs.
Qed.

Lemma no_permit_granted_after_Close_witness :
  successes MAcquire
    (hist (mkWorld (mkSem (mkChan 0 1 true [] []))
             (hist one_held_closed
              ++ [(2%nat, MAcquire, Val (Some ErrUnusable));
                  (0%nat, MRelease, Val None);
                  (3%nat, MAcquire, Val (Some ErrUnusable))])))
  = successes MAcquire (hist one_held_closed).
Proof.
  apply (no_permit_granted_after_Close
           [(2%nat, MAcquire); (0%nat, MRelease); (3%nat, MAcquire)]
           one_held_closed).
  - reflexivity.
  - reflexivity.
Defined.

(** X3.  In a reachable state where the semaphore is closed nobody is parked
    on it, and whichever method is called next returns at once (nil or an
    error) without making anybody runnable. *)
Theorem closed_semaphore_never_parks (n : Z) (s : semaphore)
        (calls : list (gid * meth)) (w : world) :
  New n = (Some s, None) ->
  run (start s) calls = Some w ->
  is_closed (sem w) = true ->
  blocked_in_Acquire (sem w) = []
  /\ blocked_in_Release (sem w) = []
  /\ forall (m : meth) (g : gid),
      exists s' e, invoke m g (sem w) = (s', Fin (Val e), []).
Proof.
  intros HN Hr Hcl.
  destruct (inv_reachable n w (ex_intro _ s (ex_intro _ calls (conj HN Hr))))
    as (_ & _ & Hq & Hrq & Hsq & _).
  assert (blocked_in_Acquire (sem w) = []) as Ha.
  { destruct (blocked_in_Acquire (sem w)); [reflexivity|].
    assert (is_closed (sem w) = false) by (apply Hsq; discriminate).
    congruence. }
  assert (blocked_in_Release (sem w) = []) as Hb.
  { destruct (blocked_in_Release (sem w)); [reflexivity|].
    assert (is_closed (sem w) = false) by (apply Hrq; discriminate).
    congruence. }
  repeat split; try assumption.
  intros m g. destruct m; simpl.
  - rewrite (Acquire_closed g _ Hcl). eauto.
  - destruct (Z.eq_dec (held (sem w)) 0) as [Hz|Hz].
    + rewrite (Release_closed_empty g _ Hcl Hz). eauto.
    + rewrite (Release_closed_held g (sem w) Hcl) by lia. eauto.
  - rewrite (Close_closed _ Hcl). eauto.
Qed.

Lemma closed_semaphore_never_parks_witness :
  blocked_in_Acquire (sem one_held_closed) = []
  /\ blocked_in_Release (sem one_held_closed) = []
  /\ forall (m : meth) (g : gid),
      exists s' e, invoke m g (sem one_held_closed) = (s', Fin (Val e), []).
Proof.
  apply (closed_semaphore_never_parks 1 (mkSem (makechan 1))
           [(0%nat, MAcquire); (1%nat, MClose)] one_held_closed).
  - reflexivity.
  - reflexivity.
  - reflexivity.
Defined.

(** ** When calls return and when they park *)

(** X4.  In any reachable state with a permit outstanding, open or closed,
    [Release] returns nil at once.  Either it takes one permit out of the
    channel and wakes nobody, or an Acquire was parked on the full channel
    and exactly that one returns nil while the held count stays as it was. *)
Theorem Release_of_held_permit_returns_nil (n : Z) (s : semaphore)
        (calls : list (gid * meth)) (w : world) (g : gid) :
  New n = (Some s, None) ->
  run (start s) calls = Some w ->
  0 < outstanding w ->
  exists s' wk,
    Release g (sem w) = (s', Fin (Val None), wk)
    /\ is_closed s' = is_closed (sem w)
    /\ ((wk = [] /\ held s' = held (sem w) - 1
         /\ blocked_in_Acquire (sem w) = [])
        \/ (exists a rest,
               blocked_in_Acquire (sem w) = a :: rest
               /\ wk = [(a, MAcquire, Val None)]
               /\ blocked_in_Acquire s' = rest
               /\ held s' = held (sem w))).
Proof.
  intros HN Hr Hout.
  destruct (inv_reachable n w (ex_intro _ s (ex_intro _ calls (conj HN Hr))))
    as (Hn & Hc & Hq & Hrq & Hsq & Hcnt).
  unfold outstanding in Hout. rewrite Hcnt in Hout.
  revert Hc Hq Hrq Hsq Hout. clear Hcnt Hr.
  destruct (sem w) as [[q d cl rq sq]]. unfold_sem.
  intros -> Hq Hrq Hsq Hout.
  destruct cl.
  - assert (sq = []) as ->
        by (destruct sq; [reflexivity|];
            assert (true = false) by (apply Hsq; discriminate); discriminate).
    split_cmp; try lia. do 2 eexists. split; [reflexivity|].
    split; [reflexivity|]. left. auto.
  - destruct sq as [|a rest].
    + split_cmp; try lia. do 2 eexists. split; [reflexivity|].
      split; [reflexivity|]. left. auto.
    + do 2 eexists. split; [reflexivity|]. split; [reflexivity|].
      right. exists a, rest. auto.
Qed.

Lemma Release_of_held_permit_returns_nil_witness :
  exists s' wk,
    Release 0%nat (sem two_held_one_waiting) = (s', Fin (Val None), wk)
    /\ is_closed s' = is_closed (sem two_held_one_waiting)
    /\ ((wk = [] /\ held s' = held (sem two_held_one_waiting) - 1
         /\ blocked_in_Acquire (sem two_held_one_waiting) = [])
        \/ (exists a rest,
               blocked_in_Acquire (sem two_held_one_waiting) = a :: rest
               /\ wk = [(a, MAcquire, Val None)]
               /\ blocked_in_Acquire s' = rest
               /\ held s' = held (sem two_held_one_waiting))).
Proof.
  apply (Release_of_held_permit_returns_nil 2 (mkSem (makechan 2))
           [(0%nat, MAcquire); (1%nat, MAcquire); (3%nat, MRelease);
            (4%nat, MAcquire); (2%nat, MAcquire)]
           two_held_one_waiting 0%nat).
  - reflexivity.
  - reflexivity.
  - vm_compute. reflexivity.
Defined.

(** X5.  [Acquire] returns an error at once exactly when the semaphore is
    closed, and then the error is [ErrUnusable] and nothing changes.  An
    Acquire that had parked comes back with an error only through a [Close],
    again with [ErrUnusable].  So an error from Acquire always means the
    semaphore has been closed.  This holds in every state. *)
Theorem Acquire_error_exactly_when_closed (g : gid) (s : semaphore) :
  (is_closed s = true
   <-> exists s' e wk, Acquire g s = (s', Fin (Val (Some e)), wk))
  /\ (forall s' e wk,
         Acquire g s = (s', Fin (Val (Some e)), wk) ->
         e = ErrUnusable /\ s' = s /\ wk = [])
  /\ (forall (m : meth) (h a : gid) s' st wk e,
         invoke m h s = (s', st, wk) ->
         In (a, MAcquire, Val (Some e)) wk ->
         m = MClose /\ e = ErrUnusable /\ is_closed s = false
         /\ is_closed s' = true /\ In a (blocked_in_Acquire s)).
Proof.
  split; [|split].
  - split.
    + intros Hcl. rewrite (Acquire_closed g s Hcl). eauto.
    + intros (s' & e & wk & E). revert E.
      destruct s as [[q d cl rq sq]]. unfold_sem.
      destruct cl; [reflexivity|].
      destruct rq; split_cmp; simpl; intros E; discriminate.
  - intros s' e wk. destruct s as [[q d cl rq sq]]. unfold_sem.
    destruct cl; [|destruct rq]; split_cmp; simpl; intros E;
      try discriminate; injection E as <- <- <-; auto.
  - intros m h a s' st wk e E Hin.
    destruct (is_closed s) eqn:Hcl.
    + exfalso. destruct m; simpl in E.
      * rewrite (Acquire_closed h s Hcl) in E. injection E as <- <- <-.
        contradiction.
      * revert Hcl E Hin. destruct s as [[q d cl rq sq]].
        unfold_sem. intros ->. split_cmp; intros E; injection E as <- <- <-;
          contradiction.
      * rewrite (Close_closed s Hcl) in E. injection E as <- <- <-.
        contradiction.
    + destruct m; simpl in E.
      * exfalso. revert Hcl E Hin. destruct s as [[q d cl rq sq]].
        unfold_sem. intros ->. destruct rq; split_cmp; intros E;
          injection E as <- <- <-; simpl; intros Hin;
          repeat (destruct Hin as [Hin|Hin]; [discriminate|]); contradiction.
      * exfalso. revert Hcl E Hin. destruct s as [[q d cl rq sq]].
        unfold_sem. intros ->. destruct sq; split_cmp; intros E;
          injection E as <- <- <-; simpl; intros Hin;
          repeat (destruct Hin as [Hin|Hin]; [discriminate|]); contradiction.
      * rewrite (Close_open s Hcl) in E. injection E as <- <- <-.
        apply in_app_or in Hin. destruct Hin as [Hin|Hin];
          apply in_map_iff in Hin; destruct Hin as (x & Ex & Hx);
          [discriminate|].
        injection Ex as -> <-. repeat split. exact Hx.
Qed.

Lemma Acquire_error_exactly_when_closed_witness :
  exists s' e wk,
    Acquire 4%nat (sem one_held_closed) = (s', Fin (Val (Some e)), wk).
Proof.
  apply (proj1 (proj1 (Acquire_error_exactly_when_closed
                         4%nat (sem one_held_closed)))).
  reflexivity.
Defined.

(** X6.  In a reachable state, [Acquire] parks its caller exactly when the
    semaphore is open and no permit is available, and [Release] parks its
    caller exactly when the semaphore is open and no permit is held.  A call
    that parks makes nobody runnable and changes nothing but the queue it
    joins. *)
Theorem parks_exactly_when_open_and_exhausted (n : Z) (s : semaphore)
        (calls : list (gid * meth)) (w : world) (g : gid) :
  New n = (Some s, None) ->
  run (start s) calls = Some w ->
  ((exists s' wk, Acquire g (sem w) = (s', Park, wk))
   <-> (is_closed (sem w) = false /\ available (sem w) = 0))
  /\ ((exists s' wk, Release g (sem w) = (s', Park, wk))
      <-> (is_closed (sem w) = false /\ held (sem w) = 0))
  /\ (forall s' wk,
         Acquire g (sem w) = (s', Park, wk) ->
         wk = [] /\ held s' = held (sem w)
         /\ blocked_in_Acquire s' = blocked_in_Acquire (sem w) ++ [g]
         /\ blocked_in_Release s' = blocked_in_Release (sem w))
  /\ (forall s' wk,
         Release g (sem w) = (s', Park, wk) ->
         wk = [] /\ held s' = held (sem w)
         /\ blocked_in_Release s' = blocked_in_Release (sem w) ++ [g]
         /\ blocked_in_Acquire s' = blocked_in_Acquire (sem w)).
Proof.
  intros HN Hr.
  destruct (inv_reachable n w (ex_intro _ s (ex_intro _ calls (conj HN Hr))))
    as (Hn & Hc & Hq & Hrq & Hsq & _).
  revert Hc Hq Hrq Hsq. clear Hr.
  destruct (sem w) as [[q d cl rq sq]]. unfold_sem.
  unfold capacity, held; simpl.
  intros -> Hq Hrq Hsq.
  split; [|split; [|split]].
  - split.
    + intros (s' & wk & E). revert E.
      destruct cl; [discriminate|].
      destruct rq; [|discriminate]. split_cmp; [discriminate|].
      intros _. split; [reflexivity|lia].
    + intros [-> Hz].
      assert (rq = []) as ->
          by (destruct rq; [reflexivity|];
              assert (q = 0) by (apply Hrq; discriminate); lia).
      split_cmp; [lia|]. eauto.
  - split.
    + intros (s' & wk & E). revert E.
      destruct cl; [split_cmp; try discriminate; lia|].
      destruct sq; [|discriminate]. split_cmp; [discriminate|].
      intros _. split; [reflexivity|lia].
    + intros [-> ->].
      assert (sq = []) as ->
          by (destruct sq; [reflexivity|];
              assert (0 = n) by (apply Hsq; discriminate); lia).
      simpl. eauto.
  - intros s' wk. destruct cl; [discriminate|].
    destruct rq; [|discriminate]. split_cmp; [discriminate|].
    intros E. injection E as <- <-. auto.
  - intros s' wk.
    destruct cl; [split_cmp; try discriminate; lia|].
    destruct sq; [|discriminate]. split_cmp; [discriminate|].
    intros E. injection E as <- <-. auto.
Qed.

Lemma parks_exactly_when_open_and_exhausted_witness :
  exists s' wk, Acquire 9%nat (sem two_held_one_waiting) = (s', Park, wk).
Proof.
  apply (proj2 (proj1 (parks_exactly_when_open_and_exhausted
                         2 (mkSem (makechan 2))
                         [(0%nat, MAcquire); (1%nat, MAcquire);
                          (3%nat, MRelease); (4%nat, MAcquire);
                          (2%nat, MAcquire)]
                         two_held_one_waiting 9%nat eq_refl eq_refl))).
  split; reflexivity.
Defined.

(** X7.  No goroutine is parked needlessly.  In every reachable state a
    parked Acquire means the semaphore is open with no permit available, a
    parked Release means it is open with no permit held, and the two queues
    are never both occupied. *)
Theorem nobody_parked_needlessly (n : Z) (s : semaphore)
        (calls : list (gid * meth)) (w : world) :
  New n = (Some s, None) ->
  run (start s) calls = Some w ->
  (blocked_in_Acquire (sem w) <> [] ->
   is_closed (sem w) = false /\ available (sem w) = 0)
  /\ (blocked_in_Release (sem w) <> [] ->
      is_closed (sem w) = false /\ held (sem w) = 0)
  /\ (blocked_in_Acquire (sem w) = [] \/ blocked_in_Release (sem w) = []).
Proof.
  intros HN Hr.
  destruct (inv_reachable n w (ex_intro _ s (ex_intro _ calls (conj HN Hr))))
    as (Hn & Hc & Hq & Hrq & Hsq & _).
  split; [|split].
  - intros H. destruct (Hsq H) as [Hh Ho]. split; [assumption|].
    unfold available. lia.
  - intros H. destruct (Hrq H) as [Hh Ho]. auto.
  - destruct (blocked_in_Acquire (sem w)) as [|a sq]; [left; reflexivity|].
    destruct (blocked_in_Release (sem w)) as [|r rq]; [right; reflexivity|].
    exfalso.
    assert (held (sem w) = n) by (apply Hsq; discriminate).
    assert (held (sem w) = 0) by (apply Hrq; discriminate).
    lia.
Qed.

Lemma nobody_parked_needlessly_witness :
  (blocked_in_Acquire (sem two_held_one_waiting) <> [] ->
   is_closed (sem two_held_one_waiting) = false
   /\ available (sem two_held_one_waiting) = 0)
  /\ (blocked_in_Release (sem two_held_one_waiting) <> [] ->
      is_closed (sem two_held_one_waiting) = false
      /\ held (sem two_held_one_waiting) = 0)
  /\ (blocked_in_Acquire (sem two_held_one_waiting) = []
      \/ blocked_in_Release (sem two_held_one_waiting) = []).
Proof.
  apply (nobody_parked_needlessly 2 (mkSem (makechan 2))
           [(0%nat, MAcquire); (1%nat, MAcquire); (3%nat, MRelease);
            (4%nat, MAcquire); (2%nat, MAcquire)]
           two_held_one_waiting).
  - reflexivity.
  - reflexivity.
Defined.

(** ** How the calls compose *)

Lemma successes_all_acquired (l : list gid) :
  successes MAcquire (map (fun g => (g, MAcquire, Val None)) l)
  = Z.of_nat (length l).
Proof.
  induction l as [|g l IH]; [reflexivity|].
  cbn [map]. rewrite successes_cons, IH. cbn [is_ok length]. lia.
Qed.

Lemma successes_acquired_released (l : list gid) :
  successes MRelease (map (fun g => (g, MAcquire, Val None)) l) = 0.
Proof.
  induction l as [|g l IH]; [reflexivity|].
  cbn [map]. rewrite successes_cons, IH. reflexivity.
Qed.

(** X8.  Acquire and Release undo each other.  On an open semaphore with
    nobody parked and [k] permits available, [k] Acquires followed by [k]
    Releases (by any goroutines) all return nil at once and leave the
    semaphore exactly as it was. *)
Theorem Acquires_then_Releases_restore (w : world) (k : nat) (g0 g1 : gid) :
  is_closed (sem w) = false ->
  blocked_in_Acquire (sem w) = [] ->
  blocked_in_Release (sem w) = [] ->
  0 <= held (sem w) ->
  Z.of_nat k <= available (sem w) ->
  run w (acquires k g0 ++ releases k g1)
  = Some (mkWorld (sem w)
            (hist w
             ++ map (fun g => (g, MAcquire, Val None)) (seq g0 k)
             ++ map (fun g => (g, MRelease, Val None)) (seq g1 k))).
Proof.
  destruct w as [[[q d cl rq sq]] h]. unfold_sem.
  unfold capacity, held; simpl.
  intros -> -> -> Hq Hk.
  rewrite run_app, run_acquires by lia.
  rewrite run_releases by lia.
  replace (q + Z.of_nat k - Z.of_nat k) with q by lia.
  rewrite <- app_assoc. reflexivity.
Qed.

Lemma Acquires_then_Releases_restore_witness :
  run (start (mkSem (makechan 3))) (acquires 2 0%nat ++ releases 2 7%nat)
  = Some (mkWorld (sem (start (mkSem (makechan 3))))
            (hist (start (mkSem (makechan 3)))
             ++ map (fun g => (g, MAcquire, Val None)) (seq 0%nat 2)
             ++ map (fun g => (g, MRelease, Val None)) (seq 7%nat 2))).
Proof.
  apply (Acquires_then_Releases_restore (start (mkSem (makechan 3)))
           2 0%nat 7%nat).
  - reflexivity.
  - reflexivity.
  - reflexivity.
  - vm_compute. discriminate.
  - vm_compute. discriminate.
Defined.

(** X9.  [Close] on a semaphore with any channel in its field, the nil
    channel of [&semaphore{}] and the unbuffered channels of the tests
    included.  It returns at once, and never panics.  On a made channel it
    returns [ErrAlreadyClosed] exactly when the channel was closed before the
    call and nil otherwise; the channel is closed afterwards with the held
    permits and the capacity untouched, and the calls it completes are those
    of the goroutines that were parked, receivers first, each with
    [ErrUnusable].  On the nil channel it returns [ErrAlreadyClosed] although
    nothing was ever closed, and the field stays nil.  A further [Close]
    returns [ErrAlreadyClosed] and changes nothing.  On a made channel it is
    the [Close] of the semaphores [New] returns. *)
Theorem Close_in_every_state (cv : chanvar) :
  exists cv' wk,
    Close_on cv
    = (cv',
       Fin (Val (match cv with
                 | None => Some ErrAlreadyClosed
                 | Some ch => if closed ch then Some ErrAlreadyClosed else None
                 end)),
       wk)
    /\ (cv = None -> cv' = None /\ wk = [])
    /\ (forall ch, cv = Some ch ->
        exists ch',
          cv' = Some ch'
          /\ closed ch' = true
          /\ qcount ch' = qcount ch
          /\ dataqsiz ch' = dataqsiz ch
          /\ map caller wk = (if closed ch then [] else recvq ch ++ sendq ch)
          /\ Forall (fun k => snd k = Val (Some ErrUnusable)) wk
          /\ Close (mkSem ch) = (mkSem ch', Fin (Val (if closed ch
                                                      then Some ErrAlreadyClosed
                                                      else None)), wk))
    /\ Close_on cv' = (cv', Fin (Val (Some ErrAlreadyClosed)), []).
Proof.
  destruct cv as [[q d cl rq sq]|].
  - destruct cl.
    + exists (Some (mkChan q d true rq sq)), []. split; [reflexivity|].
      split; [discriminate|]. split; [|reflexivity].
      intros ch E. injection E as <-. eexists. repeat split. constructor.
    + unfold Close_on, closevar, closechan. cbn [closed].
      do 2 eexists. split; [reflexivity|].
      split; [discriminate|]. split; [|reflexivity].
      intros ch E. injection E as <-. eexists. split; [reflexivity|].
      cbn [closed qcount dataqsiz recvq sendq]. repeat split.
      * unfold caller. rewrite !map_app, !map_map. simpl. rewrite !map_id.
        reflexivity.
      * rewrite map_app, !map_map. simpl.
        apply Forall_app. split; apply Forall_forall; intros k Hk;
          apply in_map_iff in Hk; destruct Hk as (x & <- & _); reflexivity.
  - exists None, []. repeat split; intros; discriminate.
Qed.

(** At the nil channel, and at the channel of [New(1)] with one permit held
    and goroutine 1 parked in Acquire. *)
Lemma Close_in_every_state_witness :
  (exists cv' wk,
      Close_on None = (cv', Fin (Val (Some ErrAlreadyClosed)), wk)
      /\ cv' = None /\ wk = [])
  /\ (exists cv' wk ch',
         Close_on (Some (c (sem one_held_one_waiting)))
         = (cv', Fin (Val None), wk)
         /\ cv' = Some ch'
         /\ closed ch' = true
         /\ qcount ch' = 1
         /\ map caller wk = [1%nat]
         /\ Forall (fun k => snd k = Val (Some ErrUnusable)) wk).
Proof.
  split.
  - destruct (Close_in_every_state None) as (cv' & wk & E & Hnil & _).
    exists cv', wk. split; [exact E|]. apply Hnil. reflexivity.
  - destruct (Close_in_every_state (Some (c (sem one_held_one_waiting))))
      as (cv' & wk & E & _ & Hmade & _).
    destruct (Hmade (c (sem one_held_one_waiting)) eq_refl)
      as (ch' & E1 & E2 & E3 & _ & E5 & E6 & _).
    exists cv', wk, ch'. repeat split; assumption.
Defined.

(** X10.  A Release without a permit raises the number of goroutines the
    semaphore lets through.  On the semaphore [New n] returns, a goroutine
    [r] that calls [Release] parks; the next Acquire hands its element
    straight to [r], so both return nil and the channel stays empty; [n]
    more Acquires then return nil at once.  In all [n + 1] Acquires have
    returned nil, one more than the capacity, with nobody parked. *)
Theorem stray_Release_lets_one_more_through (n : Z) (s : semaphore) (r g0 : gid) :
  New n = (Some s, None) ->
  r <> g0 ->
  exists w,
    run (start s) ((r, MRelease) :: acquires (S (Z.to_nat n)) g0) = Some w
    /\ hist w = (g0, MAcquire, Val None) :: (r, MRelease, Val None)
                :: map (fun g => (g, MAcquire, Val None))
                     (seq (S g0) (Z.to_nat n))
    /\ successes MAcquire (hist w) = capacity (sem w) + 1
    /\ successes MRelease (hist w) = 1
    /\ capacity (sem w) = n
    /\ held (sem w) = n
    /\ is_closed (sem w) = false
    /\ blocked_in_Acquire (sem w) = []
    /\ blocked_in_Release (sem w) = [].
Proof.
  unfold New. destruct (Z.ltb_spec n 1); [discriminate|].
  intros E Hne. injection E as <-.
  assert (Nat.eqb g0 r = false) as Hb by (apply Nat.eqb_neq; congruence).
  eexists. split.
  - cbn [acquires run].
    unfold call, parked, invoke, Release, Acquire, chanrecv, recv_buffered,
      chansend, start, makechan, blocked_in_Release, blocked_in_Acquire.
    cbn [sem hist c closed recvq sendq qcount dataqsiz app existsb
           status_map own map Z.ltb Z.compare].
    cbn [sem hist c closed recvq sendq qcount dataqsiz app existsb
           status_map own map finish Release_body resume_recv fin_bind negb].
    rewrite Hb. cbn [orb].
    cbn [sem hist c closed recvq sendq qcount dataqsiz app existsb
           status_map own map finish Release_body resume_recv fin_bind negb
           Acquire_body recover_with].
    rewrite run_acquires by lia. reflexivity.
  - cbn [hist sem]. split; [reflexivity|].
    unfold capacity, held, is_closed, blocked_in_Acquire, blocked_in_Release.
    cbn [c qcount dataqsiz closed recvq sendq].
    cbn [app].
    rewrite !successes_cons, successes_all_acquired,
      successes_acquired_released, length_seq.
    cbn [is_ok]. repeat split; lia.
Qed.

Lemma stray_Release_lets_one_more_through_witness :
  exists w,
    run (start (mkSem (makechan 2)))
      ((5%nat, MRelease) :: acquires (S (Z.to_nat 2)) 0%nat) = Some w
    /\ hist w = (0%nat, MAcquire, Val None) :: (5%nat, MRelease, Val None)
                :: map (fun g => (g, MAcquire, Val None))
                     (seq 1%nat (Z.to_nat 2))
    /\ successes MAcquire (hist w) = capacity (sem w) + 1
    /\ successes MRelease (hist w) = 1
    /\ capacity (sem w) = 2
    /\ held (sem w) = 2
    /\ is_closed (sem w) = false
    /\ blocked_in_Acquire (sem w) = []
    /\ blocked_in_Release (sem w) = [].
Proof.
  apply (stray_Release_lets_one_more_through 2 (mkSem (makechan 2))
           5%nat 0%nat).
  - reflexivity.
  - discriminate.
Defined.

(** X11.  The test helper [encapsuateClose] never panics and returns at
    once.  It reports [panicked = true] exactly when its channel is nil or
    was already closed; a made channel is closed afterwards and a nil one
    stays nil.  Run on the channel of a semaphore from [New] after [Close],
    whatever that Close returned, it reports [true] and changes nothing. *)
Theorem encapsuateClose_reports_closed (ch : chanvar) (s : semaphore) :
  (exists ch' wk,
      encapsuateClose ch
      = (ch', Fin (Val (match ch with
                        | None => true
                        | Some h => closed h
                        end)), wk)
      /\ var_closed ch' = (match ch with None => false | Some _ => true end)
      /\ (ch = None -> ch' = None))
  /\ encapsuateClose (Some (c (fst (fst (Close s)))))
     = (Some (c (fst (fst (Close s)))), Fin (Val true), []).
Proof.
  split.
  - destruct ch as [[q d cl rq sq]|].
    + unfold encapsuateClose, closevar, closechan.
      destruct cl; simpl; do 2 eexists; repeat split; intros; discriminate.
    + exists None, []. repeat split.
  - destruct s as [[q d cl rq sq]].
    unfold Close, encapsuateClose, closevar, closechan.
    destruct cl; reflexivity.
Qed.

Lemma encapsuateClose_reports_closed_witness :
  exists ch' wk,
    encapsuateClose None = (ch', Fin (Val true), wk) /\ ch' = None.
Proof.
  destruct (proj1 (encapsuateClose_reports_closed None (mkSem (makechan 1))))
    as (ch' & wk & E & _ & Hnil).
  exists ch', wk. split; [exact E|]. apply Hnil. reflexivity.
Defined.

(** ** Giving permits back after Close *)

(** On a closed semaphore with nobody parked and at least [k] permits held,
    [k] calls of [Release] in a row all return nil at once. *)
Lemma run_releases_closed (k : nat) :
  forall (q d : Z) (g0 : gid) (h : list completion),
    Z.of_nat k <= q ->
    run (mkWorld (mkSem (mkChan q d true [] [])) h) (releases k g0)
    = Some (mkWorld (mkSem (mkChan (q - Z.of_nat k) d true [] []))
              (h ++ map (fun g => (g, MRelease, Val None)) (seq g0 k))).
Proof.
  induction k as [|k IH]; intros q d g0 h Hle.
  - simpl. rewrite Z.sub_0_r, app_nil_r. reflexivity.
  - cbn [releases run]. unfold call, parked, invoke, Release, chanrecv, recv_buffered.
    cbn [sem c closed recvq sendq qcount dataqsiz blocked_in_Release
           blocked_in_Acquire app existsb hist].
    destruct (Z.eqb_spec q 0); [lia|].
    destruct (Z.ltb_spec 0 q); [|lia].
    cbn [status_map own map app]. rewrite IH by lia.
    cbn [seq map]. rewrite <- app_assoc. cbn [app].
    replace (q - 1 - Z.of_nat k) with (q - Z.of_nat (S k)) by lia.
    reflexivity.
Qed.

(** X13.  After Close the permits still out can be given back, and no more.
    In a reachable closed state with [k] permits outstanding, [k] Releases
    in a row each return nil at once and empty the channel; every Release
    after that returns [ErrUnusable] and changes nothing. *)
Theorem closed_semaphore_drains (n : Z) (s : semaphore)
        (calls : list (gid * meth)) (w : world) (g0 g : gid) :
  New n = (Some s, None) ->
  run (start s) calls = Some w ->
  is_closed (sem w) = true ->
  exists w',
    run w (releases (Z.to_nat (outstanding w)) g0) = Some w'
    /\ hist w' = hist w ++ map (fun r => (r, MRelease, Val None))
                             (seq g0 (Z.to_nat (outstanding w)))
    /\ is_closed (sem w') = true
    /\ held (sem w') = 0
    /\ outstanding w' = 0
    /\ Release g (sem w') = (sem w', Fin (Val (Some ErrUnusable)), []).
Proof.
  intros HN Hr Hcl.
  destruct (inv_reachable n w (ex_intro _ s (ex_intro _ calls (conj HN Hr))))
    as (Hn & Hc & Hq & Hrq & Hsq & Hcnt).
  assert (outstanding w = held (sem w)) as Hout
      by (unfold outstanding; lia).
  assert (blocked_in_Acquire (sem w) = []) as Ha.
  { destruct (blocked_in_Acquire (sem w)); [reflexivity|].
    assert (is_closed (sem w) = false) by (apply Hsq; discriminate).
    congruence. }
  assert (blocked_in_Release (sem w) = []) as Hb.
  { destruct (blocked_in_Release (sem w)); [reflexivity|].
    assert (is_closed (sem w) = false) by (apply Hrq; discriminate).
    congruence. }
  rewrite Hout. clear Hout Hr Hrq Hsq. revert Hc Hq Hcl Ha Hb Hcnt.
  destruct w as [[[q d cl rq sq]] h]. unfold_sem.
  unfold held, outstanding; simpl.
  intros -> Hq -> -> -> Hcnt.
  eexists. split; [apply run_releases_closed; lia|].
  simpl. rewrite Z2Nat.id by lia.
  replace (q - q) with 0 by lia.
  repeat split.
  rewrite successes_app, (successes_app MRelease).
  assert (forall l, successes MAcquire
                      (map (fun r : gid => (r, MRelease, Val None)) l) = 0) as Hz1.
  { induction l as [|x l IH]; [reflexivity|].
    cbn [map]. rewrite successes_cons, IH. reflexivity. }
  assert (forall l, successes MRelease
                      (map (fun r : gid => (r, MRelease, Val None)) l)
                    = Z.of_nat (length l)) as Hz2.
  { induction l as [|x l IH]; [reflexivity|].
    cbn [map]. rewrite successes_cons, IH. cbn [is_ok length]. lia. }
  rewrite Hz1, Hz2, length_seq. lia.
Qed.

Lemma closed_semaphore_drains_witness :
  exists w',
    run one_held_closed (releases (Z.to_nat (outstanding one_held_closed)) 0%nat)
    = Some w'
    /\ hist w' = hist one_held_closed
                 ++ map (fun r => (r, MRelease, Val None))
                      (seq 0%nat (Z.to_nat (outstanding one_held_closed)))
    /\ is_closed (sem w') = true
    /\ held (sem w') = 0
    /\ outstanding w' = 0
    /\ Release 6%nat (sem w') = (sem w', Fin (Val (Some ErrUnusable)), []).
Proof.
  apply (closed_semaphore_drains 1 (mkSem (makechan 1))
           [(0%nat, MAcquire); (1%nat, MClose)] one_held_closed 0%nat 6%nat).
  - reflexivity.
  - reflexivity.
  - reflexivity.
Defined.
